(** * Verification of the pastebin scraper (src/main.go)

    Shallow embedding of the keyword matching engine ([checkKeywords],
    [checkExceptions]), of the pattern compilation in [main], of the poll
    loop with its dedup cache [alredyChecked], and of the goroutines that
    drain [chanOutput] / [chanError] and watch [chanSignal].

    Go strings are modelled as Rocq [string] (byte strings) holding ASCII
    text: case folding, [\b] and [strings.TrimSpace] are those of Go
    restricted to ASCII. *)

From Stdlib Require Import Ascii String ZArith List Bool Lia.
From stdpp Require Import base gmap strings list relations.
Import ListNotations.
Open Scope string_scope.

(* ------------------------------------------------------------------ *)
(** ** Byte-level helpers *)

Definition nl : ascii := "010".

Definition ascii_eqb (a b : ascii) : bool := if ascii_dec a b then true else false.

Definition is_nl (c : ascii) : bool := ascii_eqb c nl.

(** ASCII word characters [0-9A-Za-z_], as Go's [\b] (regexp/syntax
    [IsWordChar]). *)
Definition is_word (c : ascii) : bool :=
  let n := nat_of_ascii c in
  (((48 <=? n) && (n <=? 57)) || ((65 <=? n) && (n <=? 90))
  || ((97 <=? n) && (n <=? 122)) || (n =? 95))%nat.

Definition is_word_opt (c : option ascii) : bool :=
  match c with Some c => is_word c | None => false end.

(** Simple case folding of ASCII letters, as used by the [(?i)] flag.
    Go folds Unicode letters too (U+017F with 's', U+212A with 'k', ...);
    on a text and a keyword made of ASCII bytes only, the two agree. *)
Definition fold_case (c : ascii) : ascii :=
  let n := nat_of_ascii c in
  if ((65 <=? n) && (n <=? 90))%nat then ascii_of_nat (n + 32) else c.


Fixpoint to_lower (s : string) : string :=
  match s with
  | EmptyString => EmptyString
  | String c s' => String (fold_case c) (to_lower s')
  end.

Definition str_head (s : string) : option ascii :=
  match s with EmptyString => None | String c _ => Some c end.

Fixpoint str_take (n : nat) (s : string) : string :=
  match n, s with
  | 0, _ => EmptyString
  | S n', String c s' => String c (str_take n' s')
  | S _, EmptyString => EmptyString
  end.

Fixpoint str_drop (n : nat) (s : string) : string :=
  match n, s with
  | 0, _ => s
  | S n', String _ s' => str_drop n' s'
  | S _, EmptyString => EmptyString
  end.

(** [strings.HasPrefix] *)
Fixpoint has_prefix (s pre : string) : bool :=
  match pre, s with
  | EmptyString, _ => true
  | String c pre', String d s' => ascii_eqb c d && has_prefix s' pre'
  | String _ _, EmptyString => false
  end.

(** [strings.Contains(s, substr)]: some suffix of [s] starts with [substr]. *)
Fixpoint contains (s substr : string) : bool :=
  has_prefix s substr ||
  match s with
  | EmptyString => false
  | String _ s' => contains s' substr
  end.

(** [unicode.IsSpace] on ASCII: '\t', '\n', '\v', '\f', '\r', ' '. *)
Definition is_space (c : ascii) : bool :=
  let n := nat_of_ascii c in (((9 <=? n) && (n <=? 13)) || (n =? 32))%nat.

Fixpoint trim_left (s : string) : string :=
  match s with
  | EmptyString => EmptyString
  | String c s' => if is_space c then trim_left s' else s
  end.

Fixpoint trim_right (s : string) : string :=
  match s with
  | EmptyString => EmptyString
  | String c s' =>
      let r := trim_right s' in
      match r with
      | EmptyString => if is_space c then EmptyString else String c EmptyString
      | _ => String c r
      end
  end.

(** [strings.TrimSpace] on ASCII text (Go also strips the Unicode spaces,
    such as U+00A0, which are not ASCII). *)
Definition TrimSpace (s : string) : string := trim_right (trim_left s).

(** The lines of a text: the pieces between ['\n'] characters. *)
Fixpoint lines (s : string) : list string :=
  match s with
  | EmptyString => [EmptyString]
  | String c s' =>
      if is_nl c then EmptyString :: lines s'
      else match lines s' with
           | l :: ls => String c l :: ls
           | [] => [String c EmptyString]
           end
  end.

(* ------------------------------------------------------------------ *)
(** ** Regular expressions: [regexp.QuoteMeta], the pattern of [main],
    [regexp.MustCompile] and [FindStringSubmatch] *)

Module Regex.

(** The bytes [regexp.QuoteMeta] escapes: [\.+*?()|[]{}^$]. *)
Definition special (c : ascii) : bool :=
  existsb (ascii_eqb c)
    ["\"; "."; "+"; "*"; "?"; "("; ")"; "|"; "["; "]"; "{"; "}"; "^"; "$"]%char.

Fixpoint QuoteMeta (s : string) : string :=
  match s with
  | EmptyString => EmptyString
  | String c s' =>
      if special c then String "\" (String c (QuoteMeta s')) else String c (QuoteMeta s')
  end.

(** [r := fmt.Sprintf(...)] of [main]: the flags [(?im)], then [^], a group
    holding [.*], [\b], the quoted keyword and [.*], then [$]. *)
Definition keyword_pattern (k : string) : string :=
  "(?im)^(.*\b" ++ QuoteMeta k ++ ".*)$".

(** Syntax of Go's regexp (regexp/syntax) on the constructs the patterns
    of this program use. *)
Inductive token :=
| TFlags (fl : list ascii)   (* (?flags) *)
| TBol                       (* ^ *)
| TEol                       (* $ *)
| TOpen                      (* ( capturing group *)
| TClose                     (* ) *)
| TDot                       (* . *)
| TStar                      (* * *)
| TWordB                     (* \b *)
| TLit (c : ascii).          (* literal, plain or escaped *)

Definition is_alnum (c : ascii) : bool := is_word c && negb (ascii_eqb c "_").

Definition is_flag (c : ascii) : bool :=
  existsb (ascii_eqb c) ["i"; "m"; "s"; "U"]%char.

(** Tokenizer; [None] is a syntax error or a construct outside the ones
    listed in [token] ([+ ? | [ {], other groups, other escapes). *)
Fixpoint parse (s : string) : option (list token) :=
  match s with
  | EmptyString => Some []
  | String "(" (String "?" r) => parse_flags [] r
  | String "\" (String c r) =>
      if ascii_eqb c "b" then cons TWordB <$> parse r
      else if (nat_of_ascii c <? 128)%nat && negb (is_alnum c)
           then cons (TLit c) <$> parse r
           else None
  | String "\" EmptyString => None          (* trailing backslash *)
  | String c r =>
      if ascii_eqb c "(" then cons TOpen <$> parse r
      else if ascii_eqb c ")" then cons TClose <$> parse r
      else if ascii_eqb c "^" then cons TBol <$> parse r
      else if ascii_eqb c "$" then cons TEol <$> parse r
      else if ascii_eqb c "." then cons TDot <$> parse r
      else if ascii_eqb c "*" then cons TStar <$> parse r
      else if existsb (ascii_eqb c) ["+"; "?"; "|"; "["; "{"]%char then None
      else cons (TLit c) <$> parse r
  end
with parse_flags (acc : list ascii) (s : string) : option (list token) :=
  match s with
  | EmptyString => None
  | String c r =>
      if ascii_eqb c ")" then cons (TFlags (rev acc)) <$> parse r
      else if is_flag c then parse_flags (c :: acc) r
      else None
  end.

(** A compiled [*regexp.Regexp] of the shape of [keyword_pattern K]: it is
    determined by the literal [K] it searches for. *)
Record Regexp := { re_literal : string }.

Fixpoint literal_then_tail (ts : list token) : option string :=
  match ts with
  | [TDot; TStar; TClose; TEol] => Some EmptyString
  | TLit c :: ts' => String c <$> literal_then_tail ts'
  | _ => None
  end.

Definition compile_tokens (ts : list token) : option Regexp :=
  match ts with
  | TFlags fl :: TBol :: TOpen :: TDot :: TStar :: TWordB :: rest =>
      if decide (fl = ["i"; "m"]%char)
      then (fun k => {| re_literal := k |}) <$> literal_then_tail rest
      else None
  | _ => None
  end.

(** [regexp.MustCompile]; [None] is the panic. *)
Definition MustCompile (pat : string) : option Regexp :=
  parse pat ≫= compile_tokens.

(** Semantics of the compiled pattern, case-insensitive and multiline:
    [^] holds at the start of the text and after ['\n'], [$] at the end of
    the text and before ['\n'], [.] matches every byte but ['\n'], and
    [\b] holds between a word and a non-word byte. *)

(** The literal [k] matches a prefix of [s] up to ASCII case. *)
Fixpoint prefix_ci (k s : string) : bool :=
  match k, s with
  | EmptyString, _ => true
  | String c k', String d s' => ascii_eqb (fold_case c) (fold_case d) && prefix_ci k' s'
  | String _ _, EmptyString => false
  end.

(** Length of the run of non-newline bytes that starts [s] (what a greedy
    [.*] consumes). *)
Fixpoint run_len (s : string) : nat :=
  match s with
  | EmptyString => 0
  | String c s' => if is_nl c then 0 else S (run_len s')
  end.

(** [\bK] succeeds at the start of [s], the byte before being [prev]. *)
Definition hit (k : string) (prev : option ascii) (s : string) : bool :=
  negb (Bool.eqb (is_word_opt prev) (is_word_opt (str_head s))) && prefix_ci k s.

(** The greedy [.*] before [\bK] backtracks from the longest run: the
    position chosen is the largest [j <= n] where [\bK] succeeds. *)
Fixpoint last_hit (k : string) (prev : option ascii) (s : string) (n : nat)
  : option nat :=
  match n, s with
  | S n', String c s' =>
      match last_hit k (Some c) s' n' with
      | Some j => Some (S j)
      | None => if hit k prev s then Some 0 else None
      end
  | _, _ => if hit k prev s then Some 0 else None
  end.

(** The pattern after [^] tried at a line start [s]: the length of the match; the
    trailing greedy [.*] runs to the next ['\n'] or the end, where [$]
    holds. *)
Definition match_at (k : string) (s : string) : option nat :=
  match last_hit k None s (run_len s) with
  | Some j => Some (j + String.length k + run_len (str_drop (j + String.length k) s))
  | None => None
  end.

(** Leftmost search: every position is tried in order, [^] only lets
    those at a line start through; [bol] says whether [s] is at one. *)
Fixpoint search (k : string) (bol : bool) (s : string) : option string :=
  match (if bol then match_at k s else None) with
  | Some n => Some (str_take n s)
  | None =>
      match s with
      | EmptyString => None
      | String c s' => search k (is_nl c) s'
      end
  end.

(** [re.FindStringSubmatch(body)], projected on [s[1]] (group 1 spans the
    whole match). *)
Definition FindStringSubmatch (re : Regexp) (body : string) : option string :=
  search (re_literal re) true body.

End Regex.

(* ------------------------------------------------------------------ *)
(** ** Matching engine *)

Import Regex.

(** [type keywordRegexType struct { regexp *regexp.Regexp; exceptions []string }];
    a nil [regexp] is [None]. *)
Record keywordRegexType := { regexp : option Regexp; exceptions : list string }.

(** The configuration entries used by [main] ([config.Keywords] and
    [config.Mailonerror]). *)
Record keyword_config := { Keyword : string; Exceptions : list string }.
Record configuration := { Keywords : list keyword_config; Mailonerror : bool }.

Fixpoint checkExceptions (s : string) (exceptions : list string) : bool :=
  match exceptions with
  | [] => false
  | x :: xs => if contains s x then true else checkExceptions s xs
  end.

(** One iteration of the loop of [checkKeywords] over [keywordsRegex]. *)
Definition checkKeywords_step (body : string) (k : string) (v : keywordRegexType)
    (acc : bool * gmap string string) : bool * gmap string string :=
  let '(status, found) := acc in
  match regexp v with
  | Some re =>
      match FindStringSubmatch re body with
      | Some s1 =>
          let match_ := TrimSpace s1 in
          if negb (checkExceptions match_ (exceptions v))
          then (true, <[k := match_]> found)
          else (status, found)
      | None => (status, found)
      end
  | None => (status, found)
  end.

(** [checkKeywords(body)]: Go visits the map in an unspecified order; the
    fold visits it in the order of [map_fold]. *)
Definition checkKeywords (keywordsRegex : gmap string keywordRegexType) (body : string)
  : bool * gmap string string :=
  map_fold (checkKeywords_step body) (false, ∅) keywordsRegex.

(** The compilation loop of [main] over [config.Keywords]; [None] is the
    panic of [regexp.MustCompile]. *)
Fixpoint compile_keywords (ks : list keyword_config)
    (keywordsRegex : gmap string keywordRegexType) : option (gmap string keywordRegexType) :=
  match ks with
  | [] => Some keywordsRegex
  | k :: ks' =>
      match MustCompile (keyword_pattern (Keyword k)) with
      | Some re =>
          compile_keywords ks'
            (<[Keyword k := {| regexp := Some re; exceptions := Exceptions k |}]> keywordsRegex)
      | None => None
      end
  end.

Definition build_keywordsRegex (config : configuration) : option (gmap string keywordRegexType) :=
  compile_keywords (Keywords config) ∅.

(* ------------------------------------------------------------------ *)
(** ** Poll loop and dedup cache *)

Module Poll.

Open Scope Z_scope.

(** Time in nanoseconds ([time.Duration]). *)
Definition Second : Z := 1000000000.
Definition Minute : Z := 60 * Second.

(** A paste of the upstream list; only [Key] is used by [main]. *)
Record paste := { Key : string }.

(** The globals the poll loop reads and writes. *)
Record St := {
  terminate : bool;
  alredyChecked : gmap string Z;
  lastCheck : Z
}.

Definition set_terminate (st : St) : St :=
  {| terminate := true; alredyChecked := alredyChecked st; lastCheck := lastCheck st |}.

(** Observable actions of the loop: sleeps, network calls, sends on
    [chanError]. *)
Inductive event :=
| Sleep (d : Z)
| FetchList
| Fetch (key : string)
| ChanError (msg : string).

(** One iteration of the clean-up loop: [if v.Before(threshold) { delete }]. *)
Definition expire_step (threshold : Z) (k : string) (v : Z) (m : gmap string Z)
  : gmap string Z :=
  if v <? threshold then delete k m else m.

(** [threshold := time.Now().Add(-10 * time.Minute)] and the range over
    [alredyChecked] deleting from it; deleting the visited key does not
    change what the range visits, so the range runs over the map as it
    was when the loop started. *)
Definition expire (now : Z) (alredyChecked : gmap string Z) : gmap string Z :=
  let threshold := now - 10 * Minute in
  map_fold (expire_step threshold) alredyChecked alredyChecked.

(** Outcome of the HTTP request and JSON decoding of the upstream list. *)
Inductive list_response :=
| ListOk (ps : list paste)
| ListFailed (e : string).

(** Modelled from the spec: [fetchPasteList(ctx)], which is not in
    src/main.go. The spec (4.4) says a transport or decode failure is
    reported as an error with an empty item set, and a success returns
    the list of items. *)
Definition fetchPasteList (resp : list_response) : list paste * option string :=
  match resp with
  | ListOk ps => (ps, None)
  | ListFailed e => ([], Some e)
  end.

(** What varies from one iteration of [for { ... }] to the next: an
    interrupt received before the [terminate] check, the clock when the
    sleep is computed, the upstream list, the clock of the clean-up. *)
Record cycle_input := {
  ci_interrupt : bool;
  ci_now : Z;
  ci_list : list_response;
  ci_sweep_now : Z
}.

Section Loop.

(** [p.fetch(ctx)], defined outside main.go: any effect on the state (it
    may record the key, and the [terminate] flag may be set meanwhile),
    and an optional error. *)
Variable fetch : paste -> St -> St * option string.

(** [for _, p := range pastes { ... }] *)
Fixpoint process_items (pastes : list paste) (st : St) : St * list event :=
  match pastes with
  | [] => (st, [])
  | p :: ps =>
      if terminate st then (st, [])                                  (* break *)
      else match alredyChecked st !! Key p with
           | Some _ => process_items ps st                           (* skipping key *)
           | None =>
               let '(st1, err) := fetch p st in
               let err_evs := match err with
                              | Some e => [ChanError ("fetch: " ++ e)%string]
                              | None => []
                              end in
               let '(st2, evs) := process_items ps st1 in
               (st2, (Fetch (Key p) :: err_evs ++ Sleep Second :: evs)%list)
           end
  end.

(** The body of the outer [for] after the [terminate] check. *)
Definition poll_cycle (c : cycle_input) (st : St) : St * list event :=
  let sleepTime := lastCheck st + Minute - ci_now c in
  let sleep_evs := if 0 <? sleepTime then [Sleep sleepTime] else [] in
  let '(pastes, err) := fetchPasteList (ci_list c) in
  let err_evs := match err with
                 | Some e => [ChanError ("fetchPasteList: " ++ e)%string]
                 | None => []
                 end in
  let '(st1, evs) := process_items pastes st in
  ({| terminate := terminate st1;
      alredyChecked := expire (ci_sweep_now c) (alredyChecked st1);
      lastCheck := lastCheck st1 |},
   (sleep_evs ++ FetchList :: err_evs ++ evs)%list).

(** The outer [for] loop, over the iterations observed; the boolean says
    whether it has broken out. *)
Fixpoint poll_loop (cs : list cycle_input) (st : St) : St * list event * bool :=
  match cs with
  | [] => (st, [], false)
  | c :: cs' =>
      let st0 := if ci_interrupt c then set_terminate st else st in
      if terminate st0 then (st0, [], true)
      else let '(st1, evs) := poll_cycle c st0 in
           let '(st2, evs2, stopped) := poll_loop cs' st1 in
           (st2, (evs ++ evs2)%list, stopped)
  end.

End Loop.

End Poll.

(* ------------------------------------------------------------------ *)
(** ** Delivery goroutines *)

Module Workers.

Import Poll.

(** Observable actions of the two consumer goroutines. *)
Inductive wevent :=
| SendPasteMessage (p : paste)      (* p.sendPasteMessage() *)
| SendErrorMessage (e : string)     (* sendErrorMessage(err) *)
| ToChanError (msg : string)        (* chanError <- ... *)
| Log (msg : string).               (* log.Printf *)

(** [for p := range chanOutput { ... }]: each received paste comes with the
    result of its [sendPasteMessage] call. *)
Fixpoint output_worker (received : list (paste * option string)) : list wevent :=
  match received with
  | [] => []
  | (p, res) :: rest =>
      SendPasteMessage p
      :: (match res with
          | Some e => [ToChanError ("sendPasteMessage: " ++ e)]
          | None => []
          end
          ++ output_worker rest)%list
  end.

(** [for err := range chanError { ... }]: each received error comes with
    the result [sendErrorMessage] would give. *)
Fixpoint error_worker (mailonerror : bool) (received : list (string * option string))
  : list wevent :=
  match received with
  | [] => []
  | (err, res) :: rest =>
      Log err
      :: ((if mailonerror
           then SendErrorMessage err
                :: match res with
                   | Some err2 => [Log ("ERROR on sending error mail: " ++ err2)]
                   | None => []
                   end
           else [])
          ++ error_worker mailonerror rest)%list
  end.

Definition is_send_paste (ev : wevent) : bool :=
  match ev with SendPasteMessage _ => true | _ => false end.
Definition is_send_error_message (ev : wevent) : bool :=
  match ev with SendErrorMessage _ => true | _ => false end.
Definition is_to_chan_error (ev : wevent) : bool :=
  match ev with ToChanError _ => true | _ => false end.

End Workers.

(* ------------------------------------------------------------------ *)
(** ** The signal goroutine *)

Module Signal.

(** What [for range chanSignal] observes: a delivered interrupt, or the
    channel being closed (which ends the range). *)
Inductive sig_event := SigRecv | SigClosed.

Record sig_state := { sig_terminate : bool; ctx_cancelled : bool }.

(** [go func() { for range chanSignal { terminate = true }; cancel() }()] *)
Fixpoint signal_goroutine (evs : list sig_event) (st : sig_state) : sig_state :=
  match evs with
  | [] => st
  | SigRecv :: evs' =>
      signal_goroutine evs' {| sig_terminate := true; ctx_cancelled := ctx_cancelled st |}
  | SigClosed :: _ => {| sig_terminate := sig_terminate st; ctx_cancelled := true |}
  end.

(** [signal.Notify(chanSignal, os.Interrupt)] sends one value per
    interrupt; the program never closes [chanSignal]. *)
Definition chanSignal_after (interrupts : nat) : list sig_event := repeat SigRecv interrupts.

Definition start : sig_state := {| sig_terminate := false; ctx_cancelled := false |}.

(** A network call made with [ctx]: aborted once [ctx] is cancelled,
    otherwise it returns, or fails after the client's 10s timeout. *)
Inductive call_outcome := Completed | TimedOut | Aborted.

Definition inflight_call (cancelled : bool) (latency : Z) : call_outcome :=
  if cancelled then Aborted
  else if (latency <=? 10 * Poll.Second)%Z then Completed else TimedOut.

End Signal.

(* ------------------------------------------------------------------ *)
(** ** Shutdown: the end of [main] and the two consumers *)

Module Shutdown.

(** Program counter of [main] after the poll loop has exited:
    [close(chanOutput)], [wgOutput.Wait()], [close(chanError)],
    [wgError.Wait()], return. *)
Inductive main_pc := CloseOutput | WaitOutput | CloseError | WaitError | Exited.

(** The [chanOutput] consumer: blocked in [range], running
    [sendPasteMessage], blocked sending on the unbuffered [chanError],
    or returned. *)
Inductive out_pc := ORange | OSending | OErrSend | ODone.

(** The [chanError] consumer: blocked in [range], logging / mailing an
    error, or returned. *)
Inductive err_pc := ERange | EHandling | EDone.

Record state := {
  pc : main_pc;
  output_closed : bool;
  error_closed : bool;
  ow : out_pc;
  ew : err_pc
}.

(** Interleaving semantics; both channels are unbuffered and, the poll
    loop having exited, nothing else sends on [chanOutput]. *)
Inductive step : state -> state -> Prop :=
| st_close_output oc ec o e :
    step {| pc := CloseOutput; output_closed := oc; error_closed := ec; ow := o; ew := e |}
         {| pc := WaitOutput; output_closed := true; error_closed := ec; ow := o; ew := e |}
| st_wait_output oc ec e :
    step {| pc := WaitOutput; output_closed := oc; error_closed := ec; ow := ODone; ew := e |}
         {| pc := CloseError; output_closed := oc; error_closed := ec; ow := ODone; ew := e |}
| st_close_error oc ec o e :
    step {| pc := CloseError; output_closed := oc; error_closed := ec; ow := o; ew := e |}
         {| pc := WaitError; output_closed := oc; error_closed := true; ow := o; ew := e |}
| st_wait_error oc ec o :
    step {| pc := WaitError; output_closed := oc; error_closed := ec; ow := o; ew := EDone |}
         {| pc := Exited; output_closed := oc; error_closed := ec; ow := o; ew := EDone |}
(* range over a closed, empty chanOutput ends; wgOutput.Done() *)
| st_out_done m ec e :
    step {| pc := m; output_closed := true; error_closed := ec; ow := ORange; ew := e |}
         {| pc := m; output_closed := true; error_closed := ec; ow := ODone; ew := e |}
(* sendPasteMessage succeeds *)
| st_out_ok m oc ec e :
    step {| pc := m; output_closed := oc; error_closed := ec; ow := OSending; ew := e |}
         {| pc := m; output_closed := oc; error_closed := ec; ow := ORange; ew := e |}
(* sendPasteMessage fails: chanError <- ... *)
| st_out_fail m oc ec e :
    step {| pc := m; output_closed := oc; error_closed := ec; ow := OSending; ew := e |}
         {| pc := m; output_closed := oc; error_closed := ec; ow := OErrSend; ew := e |}
(* rendezvous on the open chanError *)
| st_err_handoff m oc :
    step {| pc := m; output_closed := oc; error_closed := false; ow := OErrSend; ew := ERange |}
         {| pc := m; output_closed := oc; error_closed := false; ow := ORange; ew := EHandling |}
(* log, optional mail; back to range *)
| st_err_handled m oc ec o :
    step {| pc := m; output_closed := oc; error_closed := ec; ow := o; ew := EHandling |}
         {| pc := m; output_closed := oc; error_closed := ec; ow := o; ew := ERange |}
(* range over a closed chanError ends; wgError.Done() *)
| st_err_done m oc o :
    step {| pc := m; output_closed := oc; error_closed := true; ow := o; ew := ERange |}
         {| pc := m; output_closed := oc; error_closed := true; ow := o; ew := EDone |}.

(** The states right after the poll loop has exited: both channels open,
    [main] about to close [chanOutput], the consumers anywhere short of
    having returned. *)
Definition initial (s : state) : bool :=
  match pc s, output_closed s, error_closed s, ow s, ew s with
  | CloseOutput, false, false, o, e =>
      match o, e with ODone, _ => false | _, EDone => false | _, _ => true end
  | _, _, _, _, _ => false
  end.

Inductive reachable : state -> Prop :=
| reach_init s : initial s = true -> reachable s
| reach_step s s' : reachable s -> step s s' -> reachable s'.

(** A goroutine blocked sending on a closed channel panics. *)
Definition send_on_closed (s : state) : Prop := ow s = OErrSend /\ error_closed s = true.

End Shutdown.

(* ------------------------------------------------------------------ *)
(** ** Lemmas on the regular expressions *)

Module RegexFacts.

Import Regex.

(** The literal tokens of a string. *)
Fixpoint lits (s : string) : list token :=
  match s with
  | EmptyString => []
  | String c s' => TLit c :: lits s'
  end.

(** A keyword matches a line when [\bK] succeeds at some position of it. *)
Fixpoint has_at (k : string) (prev : option ascii) (s : string) : bool :=
  hit k prev s ||
  match s with
  | EmptyString => false
  | String c s' => has_at k (Some c) s'
  end.

Definition line_has_keyword (k line : string) : bool := has_at k None line.



Lemma parse_escaped (c : ascii) (r : string) :
  special c = true -> parse (String "\" (String c r)) = cons (TLit c) <$> parse r.
Proof.
  intros Hs. destruct c as [[] [] [] [] [] [] [] []]; vm_compute in Hs;
    try discriminate; reflexivity.
Qed.

Lemma parse_plain (c : ascii) (r : string) :
  special c = false -> parse (String c r) = cons (TLit c) <$> parse r.
Proof.
  intros Hs. destruct c as [[] [] [] [] [] [] [] []]; vm_compute in Hs;
    try discriminate; reflexivity.
Qed.

Lemma append_empty_l (r : string) : (EmptyString ++ r)%string = r.
Proof. reflexivity. Qed.

Lemma append_cons_l (c : ascii) (s r : string) :
  (String c s ++ r)%string = String c (s ++ r)%string.
Proof. reflexivity. Qed.

Lemma parse_QuoteMeta (k rest : string) :
  parse (QuoteMeta k ++ rest) = (fun ts => (lits k ++ ts)%list) <$> parse rest.
Proof.
  induction k as [|c k IH].
  - cbn [QuoteMeta lits]. rewrite append_empty_l. destruct (parse rest); reflexivity.
  - cbn [QuoteMeta lits]. destruct (special c) eqn:Hs; rewrite !append_cons_l.
    + rewrite (parse_escaped c _ Hs), IH. destruct (parse rest); reflexivity.
    + rewrite (parse_plain c _ Hs), IH. destruct (parse rest); reflexivity.
Qed.

Lemma parse_keyword_pattern (k : string) :
  parse (keyword_pattern k) =
  Some ([TFlags ["i"; "m"]%char; TBol; TOpen; TDot; TStar; TWordB]
        ++ lits k ++ [TDot; TStar; TClose; TEol])%list.
Proof.
  unfold keyword_pattern. simpl.
  rewrite append_empty_l, parse_QuoteMeta. reflexivity.
Qed.

Lemma literal_then_tail_lits (k : string) :
  literal_then_tail (lits k ++ [TDot; TStar; TClose; TEol])%list = Some k.
Proof.
  induction k as [|c k IH]; [reflexivity|].
  simpl. rewrite IH. destruct k; reflexivity.
Qed.

Lemma MustCompile_keyword_pattern (k : string) :
  MustCompile (keyword_pattern k) = Some {| re_literal := k |}.
Proof.
  unfold MustCompile. rewrite parse_keyword_pattern. simpl.
  rewrite literal_then_tail_lits. reflexivity.
Qed.














End RegexFacts.

(* ------------------------------------------------------------------ *)
(** ** Lemmas on the matching engine and the dedup cache *)

Module EngineFacts.

Import Regex.

(** What [checkKeywords] records for one entry of [keywordsRegex]. *)
Definition keyword_hit (body : string) (v : keywordRegexType) : option string :=
  match regexp v with
  | Some re =>
      match FindStringSubmatch re body with
      | Some s1 =>
          if checkExceptions (TrimSpace s1) (exceptions v) then None
          else Some (TrimSpace s1)
      | None => None
      end
  | None => None
  end.

Lemma checkKeywords_lookup (kr : gmap string keywordRegexType) (body k : string) :
  (checkKeywords kr body).2 !! k = kr !! k ≫= keyword_hit body.
Proof.
  unfold checkKeywords. revert k.
  apply (map_fold_weak_ind
           (fun (r : bool * gmap string string) (m : gmap string keywordRegexType) =>
              forall k, r.2 !! k = m !! k ≫= keyword_hit body)).
  - intros k. rewrite lookup_empty. reflexivity.
  - intros i x m [status found] Hi IH k. simpl in IH.
    destruct (decide (k = i)) as [->|Hne].
    + rewrite lookup_insert_eq. simpl.
      specialize (IH i). rewrite Hi in IH. simpl in IH.
      unfold checkKeywords_step, keyword_hit.
      destruct (regexp x); [|exact IH].
      destruct (FindStringSubmatch r body); [|exact IH].
      destruct (checkExceptions (TrimSpace s) (exceptions x)); simpl;
        [exact IH | apply lookup_insert_eq].
    + rewrite lookup_insert_ne by congruence. rewrite <- IH.
      unfold checkKeywords_step.
      destruct (regexp x); [|reflexivity].
      destruct (FindStringSubmatch r body); [|reflexivity].
      destruct (checkExceptions (TrimSpace s) (exceptions x)); simpl; [reflexivity|].
      apply lookup_insert_ne. congruence.
Qed.

Import Poll.

Lemma expire_lookup (now : Z) (m : gmap string Z) (k : string) :
  expire now m !! k =
  m !! k ≫= (fun v => if (v <? now - 10 * Minute)%Z then None else Some v).
Proof.
  unfold expire.
  set (th := (now - 10 * Minute)%Z).
  assert (H : forall k,
    map_fold (expire_step th) m m !! k =
    match m !! k with
    | Some v => if (v <? th)%Z then None else m !! k
    | None => m !! k
    end).
  { apply (map_fold_weak_ind
             (fun (r : gmap string Z) (m' : gmap string Z) =>
                forall k, r !! k =
                  match m' !! k with
                  | Some v => if (v <? th)%Z then None else m !! k
                  | None => m !! k
                  end)).
    - intros k'. rewrite lookup_empty. reflexivity.
    - intros i x m' r Hi IH k'. unfold expire_step.
      destruct (decide (k' = i)) as [->|Hne].
      + rewrite lookup_insert_eq. specialize (IH i). rewrite Hi in IH.
        destruct (x <? th)%Z; [apply lookup_delete_eq | exact IH].
      + rewrite lookup_insert_ne by congruence. rewrite <- IH.
        destruct (x <? th)%Z; [|reflexivity].
        apply lookup_delete_ne. congruence. }
  rewrite H. destruct (m !! k) as [v|] eqn:E; simpl; [|reflexivity].
  destruct (v <? th)%Z; reflexivity.
Qed.

End EngineFacts.

(* ------------------------------------------------------------------ *)
(** ** Lemmas on the shutdown sequence and the signal goroutine *)

Module ShutdownFacts.

Import Shutdown.

(** Where each phase of the end of [main] leaves the channels and the
    [chanOutput] consumer. *)
Definition phase_inv (s : state) : Prop :=
  match pc s with
  | CloseOutput => output_closed s = false /\ error_closed s = false
  | WaitOutput => output_closed s = true /\ error_closed s = false
  | CloseError => error_closed s = false /\ ow s = ODone
  | WaitError => error_closed s = true /\ ow s = ODone
  | Exited => error_closed s = true /\ ow s = ODone /\ ew s = EDone
  end.

(** ... and the [chanError] consumer only returns once [chanError] is
    closed. *)
Definition inv (s : state) : Prop :=
  phase_inv s /\ (ew s = EDone -> error_closed s = true).

Lemma inv_initial (s : state) : initial s = true -> inv s.
Proof.
  destruct s as [[] [] [] [] []]; unfold initial, inv, phase_inv; simpl;
    intros H; try discriminate; intuition congruence.
Qed.

Lemma inv_step (s s' : state) : inv s -> step s s' -> inv s'.
Proof.
  intros Hi Hs. inversion Hs; subst; unfold inv, phase_inv in *; simpl in *;
    try (destruct m); intuition congruence.
Qed.

Lemma inv_reachable (s : state) : reachable s -> inv s.
Proof.
  induction 1 as [s Hi|s s' _ IH Hs].
  - exact (inv_initial s Hi).
  - exact (inv_step s s' IH Hs).
Qed.

Lemma progress (s : state) : inv s -> pc s <> Exited -> exists s', step s s'.
Proof.
  destruct s as [p oc ec o e]; unfold inv, phase_inv; simpl.
  destruct p; intros [Hi He] Hp; try congruence.
  - eexists. apply st_close_output.
  - destruct Hi as [-> ->]. destruct o.
    + eexists. apply st_out_done.
    + eexists. apply st_out_ok.
    + destruct e.
      * eexists. apply st_err_handoff.
      * eexists. apply st_err_handled.
      * specialize (He eq_refl). discriminate.
    + eexists. apply st_wait_output.
  - eexists. apply st_close_error.
  - destruct Hi as [-> ->]. destruct e.
    + eexists. apply st_err_done.
    + eexists. apply st_err_handled.
    + eexists. apply st_wait_error.
Qed.

End ShutdownFacts.

Module SignalFacts.

Import Signal.

Lemma signal_goroutine_recv (n : nat) (st : sig_state) :
  signal_goroutine (repeat SigRecv (S n)) st =
  {| sig_terminate := true; ctx_cancelled := ctx_cancelled st |}.
Proof.
  revert st. induction n as [|n IH]; intros st; [reflexivity|].
  simpl. apply IH.
Qed.

End SignalFacts.

(* ------------------------------------------------------------------ *)
(** * Properties of the program *)

Import Regex RegexFacts EngineFacts.

Definition LF : string := String nl EmptyString.

(** The configuration of the scenarios: keyword "password" with the
    exception "testpassword". *)
Definition password_config : configuration :=
  {| Keywords := [ {| Keyword := "password"; Exceptions := ["testpassword"] |} ];
     Mailonerror := false |}.





(** C2 (code bug). However many interrupts arrive, the signal goroutine
    sets [terminate] but never reaches [cancel()]: its [for range
    chanSignal] only ends when [chanSignal] is closed, which never
    happens. The context stays live, so a network call in flight is not
    aborted; it returns or hits the 10s client timeout. *)
Theorem interrupt_sets_flag_but_never_cancels (n : nat) (latency : Z) :
  let st := Signal.signal_goroutine (Signal.chanSignal_after (S n)) Signal.start in
  Signal.sig_terminate st = true /\ Signal.ctx_cancelled st = false /\
  Signal.inflight_call (Signal.ctx_cancelled st) latency <> Signal.Aborted.
Proof.
  unfold Signal.chanSignal_after. cbv zeta.
  rewrite SignalFacts.signal_goroutine_recv. simpl.
  split; [reflexivity|]. split; [reflexivity|].
  unfold Signal.inflight_call. destruct (latency <=? 10 * Poll.Second)%Z; discriminate.
Qed.

(** C3. In the loop over the listed pastes (no interrupt pending), a
    paste whose key is in [alredyChecked] is skipped: [p.fetch] is not
    called, the state is unchanged and nothing is emitted, not even the
    1-second sleep. A paste whose key is not there is fetched and, whether
    the fetch fails or not, followed by [time.Sleep(1 * time.Second)]. *)
Theorem poll_skips_cached_items
    (fetch : Poll.paste -> Poll.St -> Poll.St * option string)
    (st : Poll.St) (p : Poll.paste) (ps : list Poll.paste) :
  Poll.terminate st = false ->
  (is_Some (Poll.alredyChecked st !! Poll.Key p) ->
   Poll.process_items fetch (p :: ps) st = Poll.process_items fetch ps st) /\
  (Poll.alredyChecked st !! Poll.Key p = None ->
   Poll.process_items fetch (p :: ps) st =
   let '(st1, err) := fetch p st in
   let '(st2, evs) := Poll.process_items fetch ps st1 in
   (st2, (Poll.Fetch (Poll.Key p)
          :: match err with
             | Some e => [Poll.ChanError ("fetch: " ++ e)%string]
             | None => []
             end
          ++ Poll.Sleep Poll.Second :: evs)%list)).
Proof.
  intros Ht. simpl. rewrite Ht. split.
  - intros [v Hv]. rewrite Hv. reflexivity.
  - intros Hn. rewrite Hn. reflexivity.
Qed.

Lemma poll_skips_cached_items_witness :
  let st := {| Poll.terminate := false;
               Poll.alredyChecked := {[ "k1" := 0%Z ]};
               Poll.lastCheck := 0%Z |} in
  Poll.terminate st = false /\
  Poll.process_items (fun _ st => (st, Some "timeout")) [ {| Poll.Key := "k1" |} ] st
    = (st, []).
Proof.
  cbv zeta. split; [reflexivity|].
  refine (proj1 (poll_skips_cached_items (fun _ st => (st, Some "timeout"))
                   {| Poll.terminate := false;
                      Poll.alredyChecked := {[ "k1" := 0%Z ]};
                      Poll.lastCheck := 0%Z |}
                   {| Poll.Key := "k1" |} [] eq_refl) _).
  exists 0%Z. reflexivity.
Defined.

(** C4. The clean-up pass keeps exactly the entries of [alredyChecked]
    recorded at or after [now - 10 minutes] and removes those recorded
    strictly before: no entry older than the window is left, and the
    others are kept unchanged. *)
Theorem expire_removes_exactly_old_entries (now : Z) (m : gmap string Z) (k : string) (v : Z) :
  (Poll.expire now m !! k = Some v <->
   m !! k = Some v /\ (now - 10 * Poll.Minute <= v)%Z) /\
  (Poll.expire now m !! k = None <->
   m !! k = None \/ exists v', m !! k = Some v' /\ (v' < now - 10 * Poll.Minute)%Z).
Proof.
  rewrite expire_lookup.
  destruct (m !! k) as [w|]; simpl.
  - destruct (w <? now - 10 * Poll.Minute)%Z eqn:E.
    + apply Z.ltb_lt in E. split; split.
      * discriminate.
      * intros [Hw Hle]. injection Hw as ->. lia.
      * intros _. right. exists w. split; [reflexivity|exact E].
      * reflexivity.
    + apply Z.ltb_ge in E. split; split.
      * intros Hw. injection Hw as ->. split; [reflexivity|exact E].
      * intros [Hw _]. exact Hw.
      * discriminate.
      * intros [H|[v' [Hw Hlt]]]; [discriminate|]. injection Hw as ->. lia.
  - split; split.
    + discriminate.
    + intros [H _]. discriminate.
    + intros _. left. reflexivity.
    + intros _. reflexivity.
Qed.

(** C5. In an iteration (no interrupt pending) where [fetchPasteList]
    fails: the error goes to [chanError], no paste is fetched, the
    clean-up of [alredyChecked] still runs, [terminate] stays false and
    the loop goes on with the next iteration. *)
Theorem list_failure_reported_cycle_continues
    (fetch : Poll.paste -> Poll.St -> Poll.St * option string)
    (c : Poll.cycle_input) (cs : list Poll.cycle_input) (st : Poll.St) (e : string) :
  Poll.ci_list c = Poll.ListFailed e ->
  Poll.ci_interrupt c = false ->
  Poll.terminate st = false ->
  let st1 := {| Poll.terminate := false;
                Poll.alredyChecked := Poll.expire (Poll.ci_sweep_now c) (Poll.alredyChecked st);
                Poll.lastCheck := Poll.lastCheck st |} in
  let sleepTime := (Poll.lastCheck st + Poll.Minute - Poll.ci_now c)%Z in
  let evs1 := ((if (0 <? sleepTime)%Z then [Poll.Sleep sleepTime] else [])
               ++ [Poll.FetchList; Poll.ChanError ("fetchPasteList: " ++ e)%string])%list in
  Poll.poll_loop fetch (c :: cs) st =
    (let '(st2, evs2, stopped) := Poll.poll_loop fetch cs st1 in
     (st2, (evs1 ++ evs2)%list, stopped)) /\
  (forall k, ~ In (Poll.Fetch k) evs1).
Proof.
  intros Hl Hi Ht. cbv zeta. split.
  - simpl. rewrite Hi, Ht. unfold Poll.poll_cycle. rewrite Hl. simpl.
    rewrite Ht. reflexivity.
  - intros k Hin. apply in_app_or in Hin as [Hin|Hin].
    + destruct (0 <? _)%Z; simpl in Hin; [destruct Hin as [H|[]]; discriminate | exact Hin].
    + simpl in Hin. destruct Hin as [H|[H|[]]]; discriminate.
Qed.

Lemma list_failure_reported_cycle_continues_witness :
  let c := {| Poll.ci_interrupt := false; Poll.ci_now := 0%Z;
              Poll.ci_list := Poll.ListFailed "connection refused";
              Poll.ci_sweep_now := Poll.Minute |} in
  let st := {| Poll.terminate := false; Poll.alredyChecked := {[ "k1" := 0%Z ]};
               Poll.lastCheck := 0%Z |} in
  Poll.ci_list c = Poll.ListFailed "connection refused" /\
  (forall k, ~ In (Poll.Fetch k)
     ((if (0 <? Poll.lastCheck st + Poll.Minute - Poll.ci_now c)%Z
       then [Poll.Sleep (Poll.lastCheck st + Poll.Minute - Poll.ci_now c)] else [])
      ++ [Poll.FetchList; Poll.ChanError ("fetchPasteList: " ++ "connection refused")%string])%list).
Proof.
  cbv zeta. split; [reflexivity|].
  exact (proj2 (list_failure_reported_cycle_continues (fun _ st => (st, None))
    {| Poll.ci_interrupt := false; Poll.ci_now := 0%Z;
       Poll.ci_list := Poll.ListFailed "connection refused";
       Poll.ci_sweep_now := Poll.Minute |} []
    {| Poll.terminate := false; Poll.alredyChecked := {[ "k1" := 0%Z ]};
       Poll.lastCheck := 0%Z |} "connection refused" eq_refl eq_refl eq_refl)).
Defined.

(** C6. From the exit of the poll loop on, in every interleaving of
    [main] with the two consumers: nothing is ever sent on a closed
    [chanError]; [chanError] is only closed once the [chanOutput] consumer
    has returned; when [main] returns both consumers have returned; and
    until then some step can always be taken (no deadlock). *)
Theorem shutdown_drains_in_order (s : Shutdown.state) :
  Shutdown.reachable s ->
  ~ Shutdown.send_on_closed s /\
  (Shutdown.error_closed s = true -> Shutdown.ow s = Shutdown.ODone) /\
  (Shutdown.pc s = Shutdown.Exited ->
   Shutdown.ow s = Shutdown.ODone /\ Shutdown.ew s = Shutdown.EDone) /\
  (Shutdown.pc s <> Shutdown.Exited -> exists s', Shutdown.step s s').
Proof.
  intros Hr. pose proof (ShutdownFacts.inv_reachable s Hr) as Hi.
  assert (Hc : Shutdown.error_closed s = true -> Shutdown.ow s = Shutdown.ODone).
  { destruct Hi as [Hp _]. unfold ShutdownFacts.phase_inv in Hp.
    destruct (Shutdown.pc s); intuition congruence. }
  split; [|split; [exact Hc|split]].
  - intros [Ho Hec]. specialize (Hc Hec). congruence.
  - intros Hx. destruct Hi as [Hp _]. unfold ShutdownFacts.phase_inv in Hp.
    rewrite Hx in Hp. intuition.
  - apply ShutdownFacts.progress. exact Hi.
Qed.

Lemma shutdown_drains_in_order_witness :
  let s := {| Shutdown.pc := Shutdown.CloseOutput; Shutdown.output_closed := false;
              Shutdown.error_closed := false; Shutdown.ow := Shutdown.OSending;
              Shutdown.ew := Shutdown.EHandling |} in
  Shutdown.reachable s /\ ~ Shutdown.send_on_closed s.
Proof.
  cbv zeta.
  assert (Hr : Shutdown.reachable
                 {| Shutdown.pc := Shutdown.CloseOutput; Shutdown.output_closed := false;
                    Shutdown.error_closed := false; Shutdown.ow := Shutdown.OSending;
                    Shutdown.ew := Shutdown.EHandling |})
    by (apply Shutdown.reach_init; reflexivity).
  split; [exact Hr|].
  exact (proj1 (shutdown_drains_in_order _ Hr)).
Defined.

(** C7. With keyword "password" and exception "testpassword", the body
    "user: admin\npassword: testpassword123\n" gives no hit, and the body
    "password: hunter2\n" gives exactly the hit password -> "password: hunter2". *)
Theorem password_scenario :
  (fun kr => (checkKeywords kr ("user: admin" ++ LF ++ "password: testpassword123" ++ LF)%string,
              checkKeywords kr ("password: hunter2" ++ LF)%string))
    <$> build_keywordsRegex password_config
  = Some ((false, ∅), (true, {[ "password" := "password: hunter2" ]})).
Proof. vm_compute. reflexivity. Qed.


(** C9. The [chanOutput] consumer calls [sendPasteMessage] exactly once per
    paste (no retry) and sends one error on [chanError] per failed call,
    nothing else. The [chanError] consumer never sends on [chanError];
    it logs every error it receives; it calls [sendErrorMessage] once per
    error when [Mailonerror] is set and never otherwise; and a failure of
    that call is logged. *)
Theorem delivery_workers_route_errors :
  (forall received : list (Poll.paste * option string),
     List.filter Workers.is_send_paste (Workers.output_worker received)
       = map (fun '(p, _) => Workers.SendPasteMessage p) received /\
     List.filter Workers.is_to_chan_error (Workers.output_worker received)
       = flat_map (fun '(_, res) => match res with
                                    | Some e => [Workers.ToChanError ("sendPasteMessage: " ++ e)%string]
                                    | None => []
                                    end) received) /\
  (forall (mailonerror : bool) (received : list (string * option string)),
     List.filter Workers.is_to_chan_error (Workers.error_worker mailonerror received) = [] /\
     (forall err res, In (err, res) received ->
        In (Workers.Log err) (Workers.error_worker mailonerror received)) /\
     List.filter Workers.is_send_error_message (Workers.error_worker mailonerror received)
       = (if mailonerror then map (fun '(err, _) => Workers.SendErrorMessage err) received
          else []) /\
     (forall err err2, mailonerror = true -> In (err, Some err2) received ->
        In (Workers.Log ("ERROR on sending error mail: " ++ err2)%string)
           (Workers.error_worker mailonerror received))).
Proof.
  split.
  - induction received as [|[p res] rest [IH1 IH2]]; [split; reflexivity|].
    simpl. destruct res as [e|]; simpl; rewrite ?IH1, ?IH2; split; reflexivity.
  - intros mailonerror.
    induction received as [|[err res] rest [IH1 [IH2 [IH3 IH4]]]].
    + repeat split; simpl; try tauto. destruct mailonerror; reflexivity.
    + split; [|split; [|split]].
      * simpl. destruct mailonerror; [destruct res|]; simpl; exact IH1.
      * intros err' res' [H|H].
        -- injection H as -> ->. left. reflexivity.
        -- right. apply in_or_app. right. exact (IH2 err' res' H).
      * simpl. destruct mailonerror; [destruct res|]; simpl; rewrite IH3; reflexivity.
      * intros err' err2 Hm [H|H].
        -- injection H as -> ->. subst mailonerror. simpl.
           right. right. left. reflexivity.
        -- simpl. right. apply in_or_app. right. exact (IH4 err' err2 Hm H).
Qed.

(** C10. Keyword matching ignores case but exceptions do not: with keyword
    "password" and exception "testpassword", the body
    "password: TestPassword123" has as first matching line a line that
    contains the exception only up to case, and the hit is reported. *)
Theorem exception_check_is_case_sensitive :
  exists (K : string) (E : list string) (body l : string),
    List.find (line_has_keyword K) (lines body) = Some l /\
    existsb (fun x => contains (to_lower (TrimSpace l)) (to_lower x)) E = true /\
    checkExceptions (TrimSpace l) E = false /\
    (fun kr => (checkKeywords kr body).2 !! K)
      <$> build_keywordsRegex {| Keywords := [ {| Keyword := K; Exceptions := E |} ];
                                 Mailonerror := false |}
    = Some (Some (TrimSpace l)).
Proof.
  exists "password", ["testpassword"], "password: TestPassword123", "password: TestPassword123".
  vm_compute. repeat split.
Qed.

(* ------------------------------------------------------------------ *)
(** * Further properties of the code *)

Module Extra.

Import Regex RegexFacts EngineFacts.

(** ** [strings.TrimSpace] *)

Lemma trim_right_cons (c : ascii) (s : string) :
  trim_right (String c s) =
  match trim_right s with
  | EmptyString => if is_space c then EmptyString else String c EmptyString
  | r => String c r
  end.
Proof. simpl. destruct (trim_right s); reflexivity. Qed.

Lemma trim_right_idem (s : string) : trim_right (trim_right s) = trim_right s.
Proof.
  induction s as [|c s IH]; [reflexivity|].
  rewrite trim_right_cons. destruct (trim_right s) as [|d r] eqn:E.
  - destruct (is_space c) eqn:Hc; [reflexivity|].
    rewrite trim_right_cons. simpl. rewrite Hc. reflexivity.
  - rewrite trim_right_cons, IH. reflexivity.
Qed.

Lemma trim_left_trim_right (s : string) :
  trim_left s = s -> trim_left (trim_right s) = trim_right s.
Proof.
  destruct s as [|c s]; [reflexivity|]. simpl.
  destruct (is_space c) eqn:Hc.
  - intros H. exfalso. assert (Hl : String.length (trim_left s) <= String.length s).
    { clear. induction s as [|d s IH]; simpl; [lia|]. destruct (is_space d); simpl; lia. }
    rewrite H in Hl. simpl in Hl. lia.
  - intros _. destruct (trim_right s); simpl; rewrite ?Hc; reflexivity.
Qed.

Lemma trim_left_idem (s : string) : trim_left (trim_left s) = trim_left s.
Proof.
  induction s as [|c s IH]; [reflexivity|]. simpl.
  destruct (is_space c) eqn:Hc; [exact IH|]. simpl. rewrite Hc. reflexivity.
Qed.

Lemma TrimSpace_idem (s : string) : TrimSpace (TrimSpace s) = TrimSpace s.
Proof.
  unfold TrimSpace.
  rewrite (trim_left_trim_right (trim_left s) (trim_left_idem s)).
  apply trim_right_idem.
Qed.

(** ** [checkExceptions] *)

(** [checkExceptions] reports an exception exactly when some exception
    string of the list is a substring of the text. *)
Theorem checkExceptions_iff (s : string) (exceptions : list string) :
  checkExceptions s exceptions = true <-> exists x, In x exceptions /\ contains s x = true.
Proof.
  induction exceptions as [|x xs IH]; simpl.
  - split; [discriminate|]. intros [x [[] _]].
  - destruct (contains s x) eqn:Hx.
    + split; [intros _; exists x; auto|reflexivity].
    + rewrite IH. split.
      * intros [y [Hy Hc]]. exists y. auto.
      * intros [y [[<-|Hy] Hc]]; [congruence|]. exists y. auto.
Qed.

(** An empty string among the exceptions suppresses every line: every
    text contains the empty string. *)
Theorem empty_exception_suppresses_all (s : string) (exceptions : list string) :
  In EmptyString exceptions -> checkExceptions s exceptions = true.
Proof.
  intros Hin. apply checkExceptions_iff. exists EmptyString. split; [exact Hin|].
  destruct s; reflexivity.
Qed.

Lemma empty_exception_suppresses_all_witness :
  In EmptyString ["secret"; EmptyString] /\
  checkExceptions "password: hunter2" ["secret"; EmptyString] = true.
Proof.
  split; [simpl; auto|].
  apply empty_exception_suppresses_all. simpl. auto.
Defined.

(** ** [checkKeywords] *)

(** The result of [checkKeywords] does not depend on the order in which
    the Go map is visited: it is the entry-by-entry result. *)
Theorem checkKeywords_pointwise (kr : gmap string keywordRegexType) (body : string) :
  (checkKeywords kr body).2 = omap (keyword_hit body) kr.
Proof.
  apply map_eq. intros k. rewrite checkKeywords_lookup, lookup_omap.
  destruct (kr !! k); reflexivity.
Qed.

(** The returned [status] is true exactly when at least one keyword was
    reported. *)
Theorem checkKeywords_status (kr : gmap string keywordRegexType) (body : string) :
  (checkKeywords kr body).1 = true <-> (checkKeywords kr body).2 <> ∅.
Proof.
  unfold checkKeywords.
  apply (map_fold_weak_ind
           (fun (r : bool * gmap string string) (_ : gmap string keywordRegexType) =>
              r.1 = true <-> r.2 <> ∅)).
  - simpl. split; [discriminate|]. intros H. exfalso. apply H. reflexivity.
  - intros i x m [status found] _ IH. simpl in IH. unfold checkKeywords_step.
    destruct (regexp x); [|exact IH].
    destruct (FindStringSubmatch r body); [|exact IH].
    destruct (checkExceptions (TrimSpace s) (exceptions x)); simpl; [exact IH|].
    split; [intros _; apply insert_non_empty | reflexivity].
Qed.

(** A reported hit comes from a configured keyword with a compiled
    pattern; its text is already trimmed and contains none of that
    keyword's exceptions. *)
Theorem checkKeywords_hit_shape (kr : gmap string keywordRegexType) (body k s : string) :
  (checkKeywords kr body).2 !! k = Some s ->
  exists re E, kr !! k = Some {| regexp := Some re; exceptions := E |} /\
               TrimSpace s = s /\ checkExceptions s E = false.
Proof.
  rewrite checkKeywords_lookup. destruct (kr !! k) as [[[re|] E]|]; simpl; try discriminate.
  unfold keyword_hit. simpl.
  destruct (FindStringSubmatch re body) as [s1|]; [|discriminate].
  destruct (checkExceptions (TrimSpace s1) E) eqn:Hx; [discriminate|].
  intros H. injection H as <-. exists re, E.
  split; [reflexivity|]. split; [apply TrimSpace_idem|exact Hx].
Qed.

Definition sample_keywordsRegex : gmap string keywordRegexType :=
  {[ "password" := {| regexp := Some {| re_literal := "password" |};
                      exceptions := ["testpassword"] |} ]}.

Definition sample_body : string := "  password: hunter2  ".

Lemma checkKeywords_hit_shape_witness :
  (checkKeywords sample_keywordsRegex sample_body).2 !! "password" = Some "password: hunter2" /\
  TrimSpace "password: hunter2" = "password: hunter2".
Proof.
  assert (H : (checkKeywords sample_keywordsRegex sample_body).2 !! "password" = Some "password: hunter2").
  { vm_compute. reflexivity. }
  split; [exact H|].
  destruct (checkKeywords_hit_shape _ _ _ _ H) as [re [E [_ [Ht _]]]].
  exact Ht.
Defined.

(** ** Bodies without word characters; case of the keyword *)

Fixpoint no_word (s : string) : bool :=
  match s with
  | EmptyString => true
  | String c s' => negb (is_word c) && no_word s'
  end.

Lemma hit_no_word (k : string) (prev : option ascii) (s : string) :
  is_word_opt prev = false -> no_word s = true -> hit k prev s = false.
Proof.
  intros Hp Hs. unfold hit. rewrite Hp.
  destruct s as [|c s]; simpl; [reflexivity|].
  simpl in Hs. destruct (is_word c); [discriminate|reflexivity].
Qed.

Lemma last_hit_0 (k : string) (prev : option ascii) (s : string) :
  last_hit k prev s 0 = if hit k prev s then Some 0 else None.
Proof. destruct s; reflexivity. Qed.

Lemma last_hit_no_word (k : string) (n : nat) :
  forall (prev : option ascii) (s : string),
  is_word_opt prev = false -> no_word s = true -> last_hit k prev s n = None.
Proof.
  induction n as [|n IH]; intros prev s Hp Hs.
  - rewrite last_hit_0, (hit_no_word k prev s Hp Hs). reflexivity.
  - destruct s as [|c s].
    + cbn [last_hit]. rewrite (hit_no_word k prev "" Hp Hs). reflexivity.
    + cbn [last_hit]. pose proof Hs as Hs0. simpl in Hs. apply andb_prop in Hs as [Hc Hs].
      rewrite (IH (Some c) s); [|simpl; destruct (is_word c); easy|exact Hs].
      rewrite (hit_no_word k prev (String c s) Hp Hs0). reflexivity.
Qed.

Lemma search_no_word (k : string) (s : string) :
  forall bol, no_word s = true -> search k bol s = None.
Proof.
  induction s as [|c s IH]; intros bol Hs.
  - destruct bol; [|reflexivity]. cbn [search]. unfold match_at.
    rewrite (last_hit_no_word k _ None ""); reflexivity.
  - assert (Hm : (if bol then match_at k (String c s) else None) = None).
    { destruct bol; [|reflexivity]. unfold match_at.
      rewrite (last_hit_no_word k _ None (String c s)); [reflexivity|reflexivity|exact Hs]. }
    cbn [search]. rewrite Hm. simpl in Hs. apply andb_prop in Hs as [_ Hs]. apply IH. exact Hs.
Qed.

(** A body without any word character ([0-9A-Za-z_]) never produces a hit,
    whatever the keywords: the [\b] before the keyword needs a word
    character on one side. *)
Theorem checkKeywords_no_word_body (kr : gmap string keywordRegexType) (body : string) :
  no_word body = true -> checkKeywords kr body = (false, ∅).
Proof.
  intros Hb. unfold checkKeywords.
  apply (map_fold_weak_ind
           (fun (r : bool * gmap string string) (_ : gmap string keywordRegexType) =>
              r = (false, ∅))); [reflexivity|].
  intros i x m r _ ->. unfold checkKeywords_step.
  destruct (regexp x) as [re|]; [|reflexivity].
  unfold FindStringSubmatch. rewrite (search_no_word _ body true Hb). reflexivity.
Qed.

Lemma checkKeywords_no_word_body_witness :
  no_word (" -- ++ " ++ LF ++ "!!")%string = true /\
  checkKeywords sample_keywordsRegex (" -- ++ " ++ LF ++ "!!")%string = (false, ∅).
Proof.
  split; [reflexivity|]. apply checkKeywords_no_word_body. reflexivity.
Defined.

Lemma fold_case_idem (c : ascii) : fold_case (fold_case c) = fold_case c.
Proof. destruct c as [[] [] [] [] [] [] [] []]; reflexivity. Qed.

Lemma prefix_ci_lower (k s : string) : prefix_ci (to_lower k) s = prefix_ci k s.
Proof.
  revert s. induction k as [|c k IH]; intros s; [reflexivity|].
  destruct s as [|d s]; [reflexivity|]. simpl. rewrite fold_case_idem, IH. reflexivity.
Qed.

Lemma length_to_lower (k : string) : String.length (to_lower k) = String.length k.
Proof. induction k as [|c k IH]; simpl; [reflexivity|]. rewrite IH. reflexivity. Qed.

Lemma hit_lower (k : string) (prev : option ascii) (s : string) :
  hit (to_lower k) prev s = hit k prev s.
Proof. unfold hit. rewrite prefix_ci_lower. reflexivity. Qed.

Lemma last_hit_lower (k : string) (n : nat) :
  forall (prev : option ascii) (s : string),
  last_hit (to_lower k) prev s n = last_hit k prev s n.
Proof.
  induction n as [|n IH]; intros prev s.
  - rewrite !last_hit_0, hit_lower. reflexivity.
  - destruct s as [|c s]; cbn [last_hit]; rewrite ?IH, ?hit_lower; reflexivity.
Qed.

Lemma search_lower (k s : string) :
  forall bol, search (to_lower k) bol s = search k bol s.
Proof.
  assert (Hm : forall s, match_at (to_lower k) s = match_at k s).
  { intros t. unfold match_at. rewrite last_hit_lower, length_to_lower. reflexivity. }
  induction s as [|c s IH]; intros bol; cbn [search]; rewrite ?Hm, ?IH; reflexivity.
Qed.

(** Keywords that differ only in ASCII letter case compile to patterns that
    find the same line in every body. *)
Theorem keyword_case_irrelevant (k1 k2 body : string) :
  to_lower k1 = to_lower k2 ->
  (MustCompile (keyword_pattern k1) ≫= fun re => FindStringSubmatch re body) =
  (MustCompile (keyword_pattern k2) ≫= fun re => FindStringSubmatch re body).
Proof.
  intros H. rewrite !MustCompile_keyword_pattern. simpl. unfold FindStringSubmatch. simpl.
  rewrite <- (search_lower k1), <- (search_lower k2), H. reflexivity.
Qed.

Lemma keyword_case_irrelevant_witness :
  to_lower "Password" = to_lower "PASSWORD" /\
  (MustCompile (keyword_pattern "Password") ≫= fun re => FindStringSubmatch re sample_body) =
  (MustCompile (keyword_pattern "PASSWORD") ≫= fun re => FindStringSubmatch re sample_body).
Proof.
  split; [reflexivity|]. apply keyword_case_irrelevant. reflexivity.
Defined.

(** ** The compilation loop of [main] *)




(** ** The poll loop *)

Import Poll.

(** Two sweeps in a row remove what one sweep at the later clock removes. *)
Theorem expire_compose (now1 now2 : Z) (m : gmap string Z) :
  expire now2 (expire now1 m) = expire (Z.max now1 now2) m.
Proof.
  apply map_eq. intros k. rewrite !expire_lookup.
  destruct (m !! k) as [v|]; simpl; [|reflexivity].
  destruct (Z.ltb_spec v (now1 - 10 * Minute)%Z) as [H1|H1]; simpl;
    destruct (Z.ltb_spec v (now2 - 10 * Minute)%Z) as [H2|H2];
    destruct (Z.ltb_spec v (Z.max now1 now2 - 10 * Minute)%Z) as [H3|H3]; simpl;
    try reflexivity; exfalso; lia.
Qed.

(** The shape of the trace of the items loop: a sequence of blocks, each a
    fetch, possibly the error it reported, and the one-second sleep. *)
Inductive item_trace : list event -> Prop :=
| it_nil : item_trace []
| it_ok (k : string) (rest : list event) :
    item_trace rest -> item_trace (Fetch k :: Sleep Second :: rest)
| it_err (k e : string) (rest : list event) :
    item_trace rest -> item_trace (Fetch k :: ChanError ("fetch: " ++ e)%string :: Sleep Second :: rest).

Fixpoint fetch_keys (evs : list event) : list string :=
  match evs with
  | [] => []
  | Fetch k :: rest => k :: fetch_keys rest
  | _ :: rest => fetch_keys rest
  end.

Fixpoint count_list_fetches (evs : list event) : nat :=
  match evs with
  | [] => 0
  | FetchList :: rest => S (count_list_fetches rest)
  | _ :: rest => count_list_fetches rest
  end.

Lemma count_list_fetches_app (l1 l2 : list event) :
  count_list_fetches (l1 ++ l2)%list = (count_list_fetches l1 + count_list_fetches l2)%nat.
Proof. induction l1 as [|[] l1 IH]; simpl; rewrite ?IH; reflexivity. Qed.

Lemma process_items_terminated (fetch : paste -> St -> St * option string)
      (ps : list paste) (st : St) :
  terminate st = true -> process_items fetch ps st = (st, []).
Proof. intros H. destruct ps; simpl; rewrite ?H; reflexivity. Qed.

Lemma process_items_running (fetch : paste -> St -> St * option string)
      (Hf : forall p st, terminate st = false -> terminate (fetch p st).1 = false)
      (ps : list paste) :
  forall st, terminate st = false ->
  terminate (process_items fetch ps st).1 = false /\
  count_list_fetches (process_items fetch ps st).2 = 0%nat.
Proof.
  induction ps as [|p ps IH]; intros st Ht; simpl; [auto|].
  rewrite Ht. destruct (alredyChecked st !! Key p); [apply IH; exact Ht|].
  specialize (Hf p st Ht). destruct (fetch p st) as [st1 err]. simpl in Hf.
  specialize (IH st1 Hf). destruct (process_items fetch ps st1) as [st2 evs]. simpl in *.
  destruct err; simpl; exact IH.
Qed.

Lemma process_items_item_trace (fetch : paste -> St -> St * option string)
      (ps : list paste) (st : St) :
  item_trace (process_items fetch ps st).2.
Proof.
  revert st. induction ps as [|p ps IH]; intros st; simpl; [constructor|].
  destruct (terminate st); [constructor|].
  destruct (alredyChecked st !! Key p); [apply IH|].
  destruct (fetch p st) as [st1 err].
  specialize (IH st1). destruct (process_items fetch ps st1) as [st2 evs]. simpl in *.
  destruct err; simpl; constructor; exact IH.
Qed.

(** Every item the loop fetches is followed by exactly one one-second
    sleep, with at most the fetch's own error report in between; nothing
    else appears in the trace of the items loop. *)
Theorem process_items_trace (fetch : paste -> St -> St * option string)
        (ps : list paste) (st : St) :
  item_trace (process_items fetch ps st).2.
Proof. exact (process_items_item_trace fetch ps st). Qed.

Section Dedup.

Variable fetch : paste -> St -> St * option string.

(** [p.fetch] records the key of the paste in [alredyChecked] ... *)
Hypothesis fetch_records : forall p st, is_Some (alredyChecked (fetch p st).1 !! Key p).
(** ... and removes no entry. *)
Hypothesis fetch_keeps :
  forall p st k, is_Some (alredyChecked st !! k) -> is_Some (alredyChecked (fetch p st).1 !! k).

(** Within one pass over the list, a key is fetched at most once, even if
    the list holds it several times, and only keys absent from the cache at
    the start of the pass are fetched. *)
Theorem process_items_fetch_once (ps : list paste) (st : St) :
  NoDup (fetch_keys (process_items fetch ps st).2) /\
  forall k, In k (fetch_keys (process_items fetch ps st).2) -> alredyChecked st !! k = None.
Proof.
  revert st. induction ps as [|p ps IH]; intros st; simpl.
  - split; [constructor|intros k []].
  - destruct (terminate st); [simpl; split; [constructor|intros k []]|].
    destruct (alredyChecked st !! Key p) as [t|] eqn:Hc; [apply IH|].
    pose proof (fetch_records p st) as Hr. pose proof (fetch_keeps p st) as Hk.
    destruct (fetch p st) as [st1 err]. simpl in Hr, Hk.
    specialize (IH st1). destruct (process_items fetch ps st1) as [st2 evs]. simpl in *.
    destruct IH as [Hnd Hin].
    assert (Hkeys : fetch_keys ((match err with
                                 | Some e => [ChanError ("fetch: " ++ e)%string]
                                 | None => []
                                 end ++ Sleep Second :: evs)%list) = fetch_keys evs)
      by (destruct err; reflexivity).
    rewrite Hkeys. split.
    + constructor; [|exact Hnd].
      intros Hp. apply list_elem_of_In in Hp. specialize (Hin _ Hp). destruct Hr as [x Hx]. congruence.
    + intros k [<-|Hk']; [exact Hc|].
      specialize (Hin k Hk'). destruct (alredyChecked st !! k) eqn:E; [|reflexivity].
      destruct (Hk k (ltac:(rewrite E; eexists; reflexivity))) as [x Hx]. congruence.
Qed.

End Dedup.

(** A [p.fetch] that records the key with the given time and succeeds. *)
Definition recording_fetch (now : Z) (p : paste) (st : St) : St * option string :=
  ({| terminate := terminate st;
      alredyChecked := <[Key p := now]> (alredyChecked st);
      lastCheck := lastCheck st |}, None).

Definition empty_St : St := {| terminate := false; alredyChecked := ∅; lastCheck := 0%Z |}.

Definition repeated_list : list paste :=
  [{| Key := "a" |}; {| Key := "b" |}; {| Key := "a" |}].

Lemma process_items_fetch_once_witness :
  (forall p st, is_Some (alredyChecked (recording_fetch 0 p st).1 !! Key p)) /\
  (forall p st k, is_Some (alredyChecked st !! k) ->
                  is_Some (alredyChecked (recording_fetch 0 p st).1 !! k)) /\
  NoDup (fetch_keys (process_items (recording_fetch 0) repeated_list empty_St).2).
Proof.
  assert (H1 : forall p st, is_Some (alredyChecked (recording_fetch 0 p st).1 !! Key p)).
  { intros p st. simpl. rewrite lookup_insert_eq. eexists. reflexivity. }
  assert (H2 : forall p st k, is_Some (alredyChecked st !! k) ->
                              is_Some (alredyChecked (recording_fetch 0 p st).1 !! k)).
  { intros p st k [x Hx]. simpl. destruct (decide (Key p = k)) as [<-|Hne].
    - rewrite lookup_insert_eq. eexists. reflexivity.
    - rewrite lookup_insert_ne by exact Hne. rewrite Hx. eexists. reflexivity. }
  split; [exact H1|split; [exact H2|]].
  exact (proj1 (process_items_fetch_once (recording_fetch 0) H1 H2 repeated_list empty_St)).
Defined.

(** If [terminate] becomes set while an item is being fetched, that item's
    error report and sleep still happen, and no later item is fetched. *)
Theorem terminate_during_fetch (fetch : paste -> St -> St * option string)
        (p : paste) (ps : list paste) (st : St) :
  terminate st = false -> alredyChecked st !! Key p = None ->
  terminate (fetch p st).1 = true ->
  (process_items fetch (p :: ps) st).2 =
  (Fetch (Key p) :: match (fetch p st).2 with
                    | Some e => [ChanError ("fetch: " ++ e)%string]
                    | None => []
                    end ++ [Sleep Second])%list.
Proof.
  intros Ht Hc Hf. simpl. rewrite Ht, Hc.
  destruct (fetch p st) as [st1 err]. simpl in Hf |- *.
  rewrite (process_items_terminated fetch ps st1 Hf). reflexivity.
Qed.

(** A [p.fetch] during which an interrupt arrives: [terminate] is set and
    the cancelled request fails. *)
Definition interrupted_fetch (p : paste) (st : St) : St * option string :=
  (set_terminate st, Some "context canceled").

Lemma terminate_during_fetch_witness :
  terminate empty_St = false /\ alredyChecked empty_St !! "a" = None /\
  terminate (interrupted_fetch {| Key := "a" |} empty_St).1 = true /\
  (process_items interrupted_fetch repeated_list empty_St).2 =
  [Fetch "a"; ChanError "fetch: context canceled"; Sleep Second].
Proof.
  split; [reflexivity|split; [reflexivity|split; [reflexivity|]]].
  exact (terminate_during_fetch interrupted_fetch {| Key := "a" |}
           [{| Key := "b" |}; {| Key := "a" |}] empty_St eq_refl eq_refl eq_refl).
Defined.

(** The trace of one iteration of the outer loop: the sleep until a
    minute after [lastCheck] when it is positive, the list request, its
    error if any, then the items loop. *)
Inductive cycle_trace : list event -> Prop :=
| ct_intro (pre err items : list event) :
    (pre = [] \/ exists d, pre = [Sleep d] /\ (0 < d)%Z) ->
    (err = [] \/ exists e, err = [ChanError ("fetchPasteList: " ++ e)%string]) ->
    item_trace items ->
    cycle_trace (pre ++ FetchList :: err ++ items)%list.

(** [n] iterations of the outer loop, one after the other. *)
Inductive loop_trace : nat -> list event -> Prop :=
| lt_nil : loop_trace 0 []
| lt_cons (n : nat) (c rest : list event) :
    cycle_trace c -> loop_trace n rest -> loop_trace (S n) (c ++ rest)%list.

(** The trace of the outer loop is a sequence of complete iterations, one
    per iteration run, whatever the network and [p.fetch] do: each
    iteration sleeps only for a positive duration, requests the list
    exactly once, reports at most one list error, and then runs the items
    loop. If the loop breaks, fewer iterations ran than were observed; if
    it does not, all of them ran. *)
Theorem poll_loop_trace (fetch : paste -> St -> St * option string)
        (cs : list cycle_input) (st : St) :
  exists n, loop_trace n (poll_loop fetch cs st).1.2 /\
            ((poll_loop fetch cs st).2 = true -> (n < length cs)%nat) /\
            ((poll_loop fetch cs st).2 = false -> n = length cs).
Proof.
  revert st. induction cs as [|c cs IH]; intros st.
  - exists 0%nat. split; [constructor|]. simpl. split; [discriminate|reflexivity].
  - cbn [poll_loop].
    set (st0 := if ci_interrupt c then set_terminate st else st).
    destruct (terminate st0).
    + exists 0%nat. simpl. split; [constructor|]. split; [intros; lia|discriminate].
    + unfold poll_cycle.
      destruct (fetchPasteList (ci_list c)) as [pastes err].
      pose proof (process_items_item_trace fetch pastes st0) as Hit.
      destruct (process_items fetch pastes st0) as [st1 evs]. simpl in Hit.
      match goal with |- context [poll_loop fetch cs ?s] =>
        specialize (IH s); destruct (poll_loop fetch cs s) as [[st2 evs2] stopped] end.
      destruct IH as [n [Hlt [Hs1 Hs2]]]. simpl in *.
      exists (S n). split; [|split; intros Hx; [specialize (Hs1 Hx); lia|rewrite (Hs2 Hx); reflexivity]].
      constructor; [|exact Hlt]. constructor; [| |exact Hit].
      * destruct (Z.ltb_spec 0 (lastCheck st0 + Minute - ci_now c)%Z) as [Hd|Hd];
          [right; eexists; split; [reflexivity|exact Hd]|left; reflexivity].
      * destruct err as [e|]; [right; exists e; reflexivity|left; reflexivity].
Qed.

Definition quiet_cycle (interrupt : bool) : cycle_input :=
  {| ci_interrupt := interrupt; ci_now := 0; ci_list := ListOk repeated_list; ci_sweep_now := 0 |}.

(** Without an interrupt, and with a [p.fetch] that does not set
    [terminate], the loop never breaks and fetches the upstream list
    exactly once per iteration. *)
Theorem poll_loop_runs_all (fetch : paste -> St -> St * option string)
        (cs : list cycle_input) (st : St) :
  (forall p st, terminate st = false -> terminate (fetch p st).1 = false) ->
  terminate st = false -> Forall (fun c => ci_interrupt c = false) cs ->
  (poll_loop fetch cs st).2 = false /\
  count_list_fetches (poll_loop fetch cs st).1.2 = length cs.
Proof.
  intros Hf. revert st. induction cs as [|c cs IH]; intros st Ht Hcs; simpl; [auto|].
  inversion Hcs as [|? ? Hc Hcs']; subst. rewrite Hc, Ht. unfold poll_cycle.
  destruct (fetchPasteList (ci_list c)) as [pastes err].
  pose proof (process_items_running fetch Hf pastes st Ht) as [Ht1 Hn1].
  destruct (process_items fetch pastes st) as [st1 evs]. simpl in Ht1, Hn1.
  specialize (IH {| terminate := terminate st1;
                    alredyChecked := expire (ci_sweep_now c) (alredyChecked st1);
                    lastCheck := lastCheck st1 |} Ht1 Hcs').
  match goal with |- context [poll_loop fetch cs ?s] =>
    destruct (poll_loop fetch cs s) as [[st2 evs2] stopped] end.
  simpl in *. destruct IH as [-> IH]. split; [reflexivity|].
  rewrite !count_list_fetches_app. simpl. rewrite count_list_fetches_app, Hn1, IH.
  destruct (0 <? lastCheck st + Minute - ci_now c)%Z; destruct err; simpl; lia.
Qed.

Lemma poll_loop_runs_all_witness :
  (forall p st, terminate st = false -> terminate (recording_fetch 0 p st).1 = false) /\
  terminate empty_St = false /\
  Forall (fun c => ci_interrupt c = false) [quiet_cycle false; quiet_cycle false] /\
  count_list_fetches
    (poll_loop (recording_fetch 0) [quiet_cycle false; quiet_cycle false] empty_St).1.2 = 2%nat.
Proof.
  assert (Hf : forall p st, terminate st = false -> terminate (recording_fetch 0 p st).1 = false)
    by (intros p st H; exact H).
  assert (Hc : Forall (fun c => ci_interrupt c = false) [quiet_cycle false; quiet_cycle false])
    by (repeat constructor).
  split; [exact Hf|split; [reflexivity|split; [exact Hc|]]].
  exact (proj2 (poll_loop_runs_all (recording_fetch 0) _ empty_St Hf eq_refl Hc)).
Defined.

(** ** Termination of the shutdown phase *)

Definition pc_rank (p : Shutdown.main_pc) : nat :=
  match p with
  | Shutdown.CloseOutput => 4 | Shutdown.WaitOutput => 3 | Shutdown.CloseError => 2
  | Shutdown.WaitError => 1 | Shutdown.Exited => 0
  end.

Definition ow_rank (o : Shutdown.out_pc) : nat :=
  match o with
  | Shutdown.OSending => 4 | Shutdown.OErrSend => 3 | Shutdown.ORange => 1 | Shutdown.ODone => 0
  end.

Definition ew_rank (e : Shutdown.err_pc) : nat :=
  match e with Shutdown.EHandling => 2 | Shutdown.ERange => 1 | Shutdown.EDone => 0 end.

Definition rank (s : Shutdown.state) : nat :=
  (pc_rank (Shutdown.pc s) + ow_rank (Shutdown.ow s) + ew_rank (Shutdown.ew s))%nat.

Lemma rank_le (s : Shutdown.state) : (rank s <= 10)%nat.
Proof. destruct s as [[] oc ec [] []]; unfold rank; simpl; lia. Qed.

Lemma step_rank (s s' : Shutdown.state) : Shutdown.step s s' -> (rank s' < rank s)%nat.
Proof. intros H. inversion H; subst; unfold rank; simpl; try destruct m; simpl; lia. Qed.

Lemma nsteps_rank (n : nat) (s s' : Shutdown.state) :
  nsteps Shutdown.step n s s' -> (rank s' + n <= rank s)%nat.
Proof.
  induction 1 as [s|n s1 s2 s3 H12 _ IH]; [lia|].
  pose proof (step_rank s1 s2 H12). lia.
Qed.

(** After the poll loop, [main] and the two consumers can take at most
    ten steps in total, in any interleaving and from any state: the
    shutdown always terminates. *)
Theorem shutdown_bounded (n : nat) (s s' : Shutdown.state) :
  nsteps Shutdown.step n s s' -> (n <= 10)%nat.
Proof. intros H. pose proof (nsteps_rank n s s' H). pose proof (rank_le s). lia. Qed.

Lemma shutdown_bounded_witness :
  nsteps Shutdown.step 1
    {| Shutdown.pc := Shutdown.CloseOutput; Shutdown.output_closed := false;
       Shutdown.error_closed := false; Shutdown.ow := Shutdown.ORange;
       Shutdown.ew := Shutdown.ERange |}
    {| Shutdown.pc := Shutdown.WaitOutput; Shutdown.output_closed := true;
       Shutdown.error_closed := false; Shutdown.ow := Shutdown.ORange;
       Shutdown.ew := Shutdown.ERange |} /\ (1 <= 10)%nat.
Proof.
  assert (H : nsteps Shutdown.step 1
    {| Shutdown.pc := Shutdown.CloseOutput; Shutdown.output_closed := false;
       Shutdown.error_closed := false; Shutdown.ow := Shutdown.ORange;
       Shutdown.ew := Shutdown.ERange |}
    {| Shutdown.pc := Shutdown.WaitOutput; Shutdown.output_closed := true;
       Shutdown.error_closed := false; Shutdown.ow := Shutdown.ORange;
       Shutdown.ew := Shutdown.ERange |})
    by (eapply nsteps_l; [apply Shutdown.st_close_output|apply nsteps_O]).
  split; [exact H|exact (shutdown_bounded _ _ _ H)].
Defined.

Lemma inv_reaches_exit (n : nat) :
  forall s, (rank s < n)%nat -> ShutdownFacts.inv s ->
  exists s', rtc Shutdown.step s s' /\ Shutdown.pc s' = Shutdown.Exited /\
             Shutdown.ow s' = Shutdown.ODone /\ Shutdown.ew s' = Shutdown.EDone.
Proof.
  induction n as [|n IH]; intros s Hr Hi; [lia|].
  destruct (Shutdown.pc s) eqn:Hp.
  5: { exists s. destruct Hi as [Hph _]. unfold ShutdownFacts.phase_inv in Hph.
       rewrite Hp in Hph. split; [apply rtc_refl|]. intuition. }
  all: destruct (ShutdownFacts.progress s Hi ltac:(congruence)) as [s1 Hs1];
       pose proof (step_rank s s1 Hs1);
       destruct (IH s1 ltac:(lia) (ShutdownFacts.inv_step s s1 Hi Hs1)) as [s' [Hrt Hs']];
       exists s'; split; [eapply rtc_l; [exact Hs1|exact Hrt]|exact Hs'].
Qed.

(** From every state of the shutdown phase, some interleaving leads to
    [main] returning with both consumers returned. *)
Theorem shutdown_reaches_exit (s : Shutdown.state) :
  Shutdown.reachable s ->
  exists s', rtc Shutdown.step s s' /\ Shutdown.pc s' = Shutdown.Exited /\
             Shutdown.ow s' = Shutdown.ODone /\ Shutdown.ew s' = Shutdown.EDone.
Proof.
  intros Hr. apply (inv_reaches_exit (S (rank s))); [lia|].
  exact (ShutdownFacts.inv_reachable s Hr).
Qed.

Lemma shutdown_reaches_exit_witness :
  Shutdown.reachable
    {| Shutdown.pc := Shutdown.CloseOutput; Shutdown.output_closed := false;
       Shutdown.error_closed := false; Shutdown.ow := Shutdown.OSending;
       Shutdown.ew := Shutdown.EHandling |} /\
  exists s', rtc Shutdown.step
    {| Shutdown.pc := Shutdown.CloseOutput; Shutdown.output_closed := false;
       Shutdown.error_closed := false; Shutdown.ow := Shutdown.OSending;
       Shutdown.ew := Shutdown.EHandling |} s' /\ Shutdown.pc s' = Shutdown.Exited.
Proof.
  assert (Hr : Shutdown.reachable
    {| Shutdown.pc := Shutdown.CloseOutput; Shutdown.output_closed := false;
       Shutdown.error_closed := false; Shutdown.ow := Shutdown.OSending;
       Shutdown.ew := Shutdown.EHandling |}) by (apply Shutdown.reach_init; reflexivity).
  split; [exact Hr|].
  destruct (shutdown_reaches_exit _ Hr) as [s' [H1 [H2 _]]].
  exists s'. split; assumption.
Defined.

End Extra.
